(** * HashString: a string-interning table keyed by the hash of the text

    A shallow embedding of [src/HashString.h] and [src/HashString.cpp].
    The process-wide statics ([s_internedStrings], [s_kEmptyString]) are an
    explicit record threaded through a small state-and-failure monad; the
    [std::map] is a [gmap] with the two member functions the code calls
    ([find], [insert]); a map iterator is the key of the node it designates
    (or the past-the-end position), so reading through an iterator reads the
    shared table. *)

From Stdlib Require Import ZArith String Ascii List.
From stdpp Require Import base option list gmap strings.

Local Open Scope Z_scope.

(** ** Machine integers *)

(** [typedef unsigned int StringID;] - an [unsigned int] of 32 bits.  The
    conversion from the [size_t] a hash functor returns keeps the value
    modulo [2^32]. *)
Abbreviation StringID := Z (only parsing).

Definition UINT_BITS : Z := 32.

Definition to_StringID (z : Z) : StringID := z mod 2 ^ UINT_BITS.

(** ** A concrete hash functor

    [std::hash<std::string>] is left to the implementation of the standard
    library; the development is parametric in it.  To evaluate the model on
    concrete inputs we use the 64-bit FNV-1a hash of the bytes of the text. *)

Definition FNV_offset_basis : Z := 14695981039346656037.
Definition FNV_prime : Z := 1099511628211.

Fixpoint fnv1a_append (h : Z) (s : string) : Z :=
  match s with
  | EmptyString => h
  | String c rest =>
      fnv1a_append ((Z.lxor h (Z.of_N (N_of_ascii c)) * FNV_prime) mod 2 ^ 64) rest
  end.

Definition fnv1a (s : string) : Z := fnv1a_append FNV_offset_basis s.

(** ** [std::map< StringID, std::string const >] *)

Module StdMap.

(** An iterator designates the node of a key, or is past the end
    ([None]).  Nodes are never erased by this program and their mapped
    value is [const], so a position stays valid once obtained. *)
Abbreviation iterator := (option Z) (only parsing).

Definition cend (m : gmap Z string) : iterator := None.

Definition find (m : gmap Z string) (k : Z) : iterator :=
  match m !! k with
  | Some _ => Some k
  | None => None
  end.

(** [insert] leaves the map alone when the key is already there, and
    returns the position of the node with that key together with whether
    the insertion took place. *)
Definition insert (p : Z * string) (m : gmap Z string)
  : gmap Z string * (iterator * bool) :=
  match m !! p.1 with
  | Some _ => (m, (Some p.1, false))
  | None => (<[p.1 := p.2]> m, (Some p.1, true))
  end.

(** [*it]: the pair stored in the node; nothing at [cend()]. *)
Definition deref (m : gmap Z string) (it : iterator) : option (Z * string) :=
  match it with
  | Some k =>
      match m !! k with
      | Some v => Some (k, v)
      | None => None
      end
  | None => None
  end.

End StdMap.

(** [std::string( c_str )]: the characters up to the first NUL. *)
Fixpoint string_of_c_str (c_str : string) : string :=
  match c_str with
  | EmptyString => EmptyString
  | String c rest =>
      if Ascii.eqb c zero then EmptyString else String c (string_of_c_str rest)
  end.

(** ** The handle and the statics *)

(** [class HashString]: the position of the entry in the map and the hash
    value.  The header lists [m_mapPosition] only; [m_hashValue], which
    every constructor and operator of the .cpp file uses, is the
    [StringID] that [getHashValue] is declared to return. *)
Record HashString := mkHashString {
  m_mapPosition : StdMap.iterator;
  m_hashValue : StringID
}.

(** The static members of [HashString] between the construction of the
    table by [HashStringInitilizer] and its deletion. *)
Record statics := mkStatics {
  s_internedStrings : gmap Z string;
  s_kEmptyString : HashString
}.

(** ** Outcomes and the monad of the member functions *)

Inductive outcome (A : Type) : Type :=
| Ret (a : A)                 (* the call returns [a] *)
| AssertFail (msg : string)   (* [assert] failed: the process is aborted *)
| Undefined.                  (* undefined behaviour: [*] on [cend()] *)

Arguments Ret {A} a.
Arguments AssertFail {A} msg.
Arguments Undefined {A}.

Definition M (A : Type) : Type := statics -> outcome A * statics.

Definition ret {A} (a : A) : M A := fun g => (Ret a, g).

Definition bind {A B} (c : M A) (k : A -> M B) : M B :=
  fun g =>
    match c g with
    | (Ret a, g') => k a g'
    | (AssertFail msg, g') => (AssertFail msg, g')
    | (Undefined, g') => (Undefined, g')
    end.

Notation "x <- c ;; k" := (bind c (fun x => k))
  (at level 100, c at next level, right associativity).

Definition get_internedStrings : M (gmap Z string) :=
  fun g => (Ret (s_internedStrings g), g).

Definition set_internedStrings (m : gmap Z string) : M unit :=
  fun g => (Ret tt, {| s_internedStrings := m; s_kEmptyString := s_kEmptyString g |}).

Definition get_kEmptyString : M HashString :=
  fun g => (Ret (s_kEmptyString g), g).

Definition undefined {A} : M A := fun g => (Undefined, g).

(** [assert( e )] of <cassert>: nothing when [NDEBUG] is defined, otherwise
    the process is aborted with the message when [e] is false. *)
Definition assert_ (ndebug : bool) (e : bool) (msg : string) : M unit :=
  fun g => if ndebug then (Ret tt, g)
           else if e then (Ret tt, g) else (AssertFail msg, g).

(** Neither source file defines [NDEBUG]. *)
Definition NDEBUG : bool := false.

(** [it->second]. *)
Definition iter_second (it : StdMap.iterator) : M string :=
  m <- get_internedStrings ;;
  match StdMap.deref m it with
  | Some p => ret p.2
  | None => undefined
  end.

(** ** The lifetime of the statics

    [s_internedStrings] and [s_stringHash] are static pointers which the
    constructor of [HashStringInitilizer] sets and its destructor deletes,
    under the control of [s_schwarzCounter].  The header defines one
    [initializer] object in every translation unit that includes it. *)

(** A static pointer: zero until it is first assigned, the object a [new]
    returned, or what [delete] left behind. *)
Inductive pointer (A : Type) : Type :=
| Null
| Live (a : A)
| Deleted.

Arguments Null {A}.
Arguments Live {A} a.
Arguments Deleted {A}.

Definition is_live {A} (q : pointer A) : bool :=
  match q with
  | Live _ => true
  | _ => false
  end.

(** [delete q]: nothing on a null pointer; deleting twice is undefined. *)
Definition delete_ {A} (q : pointer A) : option (pointer A) :=
  match q with
  | Null => Some Null
  | Live _ => Some Deleted
  | Deleted => None
  end.

Definition INT_MIN : Z := - 2 ^ 31.

Record process := mkProcess {
  s_schwarzCounter : Z;                       (* [static int s_schwarzCounter] *)
  p_internedStrings : pointer (gmap Z string); (* [HashString::s_internedStrings] *)
  p_stringHash : pointer unit;                 (* [HashString::s_stringHash] *)
  p_kEmptyString : HashString                  (* [HashString::s_kEmptyString] *)
}.

(** The statics before any dynamic initialisation. *)
Definition process_zero : process :=
  {| s_schwarzCounter := 0;
     p_internedStrings := Null;
     p_stringHash := Null;
     p_kEmptyString := {| m_mapPosition := None; m_hashValue := 0 |} |}.

Module Initilizer.

Definition getSchwarz (p : process) : Z := s_schwarzCounter p.

(** [HashStringInitilizer::HashStringInitilizer()]: the allocation and the
    increment are both under the test of the counter against zero. *)
Definition ctor (p : process) : outcome unit * process :=
  if s_schwarzCounter p =? 0
  then (Ret tt,
        {| s_schwarzCounter := s_schwarzCounter p + 1;
           p_internedStrings := Live ∅;
           p_stringHash := Live tt;
           p_kEmptyString := p_kEmptyString p |})
  else (Ret tt, p).

(** [HashStringInitilizer::~HashStringInitilizer()]: the counter is
    decremented first ([--] on an [int] at its minimum is undefined), and
    the two objects are deleted when the result is zero. *)
Definition dtor (p : process) : outcome unit * process :=
  if s_schwarzCounter p =? INT_MIN then (Undefined, p)
  else
    let c := s_schwarzCounter p - 1 in
    if c =? 0
    then
      match delete_ (p_internedStrings p), delete_ (p_stringHash p) with
      | Some t, Some h =>
          (Ret tt,
           {| s_schwarzCounter := c; p_internedStrings := t; p_stringHash := h;
              p_kEmptyString := p_kEmptyString p |})
      | _, _ =>
          (Undefined,
           {| s_schwarzCounter := c;
              p_internedStrings := p_internedStrings p;
              p_stringHash := p_stringHash p;
              p_kEmptyString := p_kEmptyString p |})
      end
    else
      (Ret tt,
       {| s_schwarzCounter := c;
          p_internedStrings := p_internedStrings p;
          p_stringHash := p_stringHash p;
          p_kEmptyString := p_kEmptyString p |}).

End Initilizer.

(** The construction or the destruction of one [initializer] object. *)
Inductive lifetime_event : Type :=
| Construct
| Destruct.

Definition lifetime_step (e : lifetime_event) : process -> outcome unit * process :=
  match e with
  | Construct => Initilizer.ctor
  | Destruct => Initilizer.dtor
  end.

Fixpoint lifetime_run (es : list lifetime_event) (p : process)
  : outcome unit * process :=
  match es with
  | [] => (Ret tt, p)
  | e :: rest =>
      match lifetime_step e p with
      | (Ret _, p') => lifetime_run rest p'
      | r => r
      end
  end.

(** A member function run on the process: it goes through
    [s_internedStrings], and through [s_stringHash] when it hashes a text;
    going through a pointer that is null or deleted is undefined. *)
Definition in_process {A} (uses_hash : bool) (c : M A) (p : process)
  : outcome A * process :=
  match p_internedStrings p, (if uses_hash then p_stringHash p else Live tt) with
  | Live m, Live _ =>
      let r := c {| s_internedStrings := m; s_kEmptyString := p_kEmptyString p |} in
      (r.1,
       {| s_schwarzCounter := s_schwarzCounter p;
          p_internedStrings := Live (s_internedStrings r.2);
          p_stringHash := p_stringHash p;
          p_kEmptyString := s_kEmptyString r.2 |})
  | _, _ => (Undefined, p)
  end.

(** A text without a NUL character. *)
Fixpoint NUL_free (s : string) : bool :=
  match s with
  | EmptyString => true
  | String c rest => negb (Ascii.eqb c zero) && NUL_free rest
  end.

Section HashStringModel.

(** [*s_stringHash]: the call operator of [std::hash<std::string>],
    returning a [size_t]. *)
Variable stringHash : string -> Z.

(** [StringID hash_value = s_stringHash->operator()( str );] *)
Definition hash_value_of (str : string) : StringID :=
  to_StringID (stringHash str).

(** *** Static region *)

Definition isStringInterned (str : string) : M bool :=
  let hash_value := hash_value_of str in
  m <- get_internedStrings ;;
  if decide (StdMap.find m hash_value <> StdMap.cend m)
  then ret true
  else ret false.

Definition isStringInterned_id (hash_value : StringID) : M bool :=
  m <- get_internedStrings ;;
  if decide (StdMap.find m hash_value <> StdMap.cend m)
  then ret true
  else ret false.

Definition internString (str : string) : M StringID :=
  let hash_value := hash_value_of str in
  m <- get_internedStrings ;;
  if decide (StdMap.find m hash_value <> StdMap.cend m)
  then ret hash_value
  else
    _ <- set_internedStrings (StdMap.insert (hash_value, str) m).1 ;;
    ret hash_value.

Definition getStringFromHash (id : StringID) : M string :=
  let rval := EmptyString in
  m <- get_internedStrings ;;
  let iter := StdMap.find m id in
  if decide (iter <> StdMap.cend m)
  then rval <- iter_second iter ;; ret rval
  else ret rval.

Definition getInternMap : M (gmap Z string) := get_internedStrings.

(** *** Members *)

Definition getString (this : HashString) : M string :=
  iter_second (m_mapPosition this).

Definition HashString_copy (other : HashString) : M HashString :=
  ret {| m_mapPosition := m_mapPosition other;
         m_hashValue := m_hashValue other |}.

(** [HashString()] redirects to the copy constructor on
    [s_kEmptyString]. *)
Definition HashString_default : M HashString :=
  e <- get_kEmptyString ;;
  HashString_copy e.

Definition HashString_from_string (str : string) : M HashString :=
  let hash := hash_value_of str in
  m <- get_internedStrings ;;
  let result := StdMap.insert (hash, str) m in
  _ <- set_internedStrings result.1 ;;
  ret {| m_mapPosition := result.2.1; m_hashValue := hash |}.

Definition HashString_from_id (ndebug : bool) (str_id : StringID) : M HashString :=
  m <- get_internedStrings ;;
  let pos := StdMap.find m str_id in
  _ <- (if decide (pos = StdMap.cend m)
        then assert_ ndebug false "Uninterned HashString Referenced"
        else ret tt) ;;
  ret {| m_mapPosition := pos; m_hashValue := str_id |}.

Definition HashString_from_c_str (c_str : string) : M HashString :=
  HashString_from_string (string_of_c_str c_str).

(** [operator=]: both members are taken from [other]. *)
Definition assign (this other : HashString) : HashString :=
  {| m_mapPosition := m_mapPosition other; m_hashValue := m_hashValue other |}.

Definition op_lt (this other : HashString) : bool :=
  m_hashValue this <? m_hashValue other.

Definition op_eq (this other : HashString) : bool :=
  m_hashValue this =? m_hashValue other.

Definition op_ne (this other : HashString) : bool :=
  negb (m_hashValue this =? m_hashValue other).

Definition op_eq_string (this : HashString) (other : string) : M bool :=
  s <- getString this ;; ret (String.eqb s other).

Definition op_ne_string (this : HashString) (other : string) : M bool :=
  s <- getString this ;; ret (negb (String.eqb s other)).

Definition op_eq_id (this : HashString) (other : StringID) : bool :=
  m_hashValue this =? other.

Definition op_ne_id (this : HashString) (other : StringID) : bool :=
  negb (m_hashValue this =? other).

Definition op_lt_id (this : HashString) (other : StringID) : bool :=
  m_hashValue this <? other.

(** *** Start of the program *)

(** [HashStringInitilizer()] with the counter at zero:
    [s_internedStrings = new InternStringMap()].  The constant has not been
    constructed yet; its slot holds a handle bound to nothing. *)
Definition HashStringInitilizer_ctor : statics :=
  {| s_internedStrings := ∅;
     s_kEmptyString := {| m_mapPosition := None; m_hashValue := 0 |} |}.

(** [HashString const HashString::s_kEmptyString("");] which follows the
    initializer object of the header in the translation unit. *)
Definition program_start : statics :=
  match HashString_from_c_str EmptyString HashStringInitilizer_ctor with
  | (Ret e, g) => {| s_internedStrings := s_internedStrings g; s_kEmptyString := e |}
  | (_, g) => g
  end.

(** *** Client programs

    A client owns handle variables and calls the public interface.  Handle
    variables are named by their index in [locals]; an operation that names
    a variable which was never declared is not a program and is skipped. *)

Record client := mkClient {
  globals : statics;
  locals : list HashString
}.

Inductive value : Type :=
| VUnit
| VBool (b : bool)
| VID (id : StringID)
| VString (s : string)
| VMap (m : gmap Z string).

Inductive op : Type :=
| CallIsStringInterned (str : string)
| CallIsStringInternedID (id : StringID)
| CallInternString (str : string)
| CallGetStringFromHash (id : StringID)
| CallGetInternMap
| NewDefault
| NewCopy (i : nat)
| NewFromString (str : string)
| NewFromID (id : StringID)
| NewFromCStr (c_str : string)
| Assign (i j : nat)
| CallGetString (i : nat)
| Less (i j : nat)
| Equal (i j : nat)
| NotEqual (i j : nat)
| EqualString (i : nat) (s : string)
| NotEqualString (i : nat) (s : string)
| EqualID (i : nat) (id : StringID)
| NotEqualID (i : nat) (id : StringID)
| LessID (i : nat) (id : StringID).

(** Run a member function on the statics of the client and let [k] turn
    its result into the value seen and the new handle variables. *)
Definition call {A} (c : M A) (k : A -> list HashString -> value * list HashString)
    (cl : client) : outcome value * client :=
  match c (globals cl) with
  | (Ret a, g) =>
      (Ret (k a (locals cl)).1, {| globals := g; locals := (k a (locals cl)).2 |})
  | (AssertFail msg, g) => (AssertFail msg, {| globals := g; locals := locals cl |})
  | (Undefined, g) => (Undefined, {| globals := g; locals := locals cl |})
  end.

Definition observe {A} (inj : A -> value) (c : M A) : client -> outcome value * client :=
  call c (fun a l => (inj a, l)).

Definition declare (c : M HashString) : client -> outcome value * client :=
  call c (fun h l => (VUnit, l ++ [h])).

Definition with_local (i : nat) (k : HashString -> client -> outcome value * client)
    (cl : client) : outcome value * client :=
  match locals cl !! i with
  | Some h => k h cl
  | None => (Ret VUnit, cl)
  end.

Definition exec (o : op) : client -> outcome value * client :=
  match o with
  | CallIsStringInterned str => observe VBool (isStringInterned str)
  | CallIsStringInternedID id => observe VBool (isStringInterned_id id)
  | CallInternString str => observe VID (internString str)
  | CallGetStringFromHash id => observe VString (getStringFromHash id)
  | CallGetInternMap => observe VMap getInternMap
  | NewDefault => declare HashString_default
  | NewCopy i => with_local i (fun h => declare (HashString_copy h))
  | NewFromString str => declare (HashString_from_string str)
  | NewFromID id => declare (HashString_from_id NDEBUG id)
  | NewFromCStr c_str => declare (HashString_from_c_str c_str)
  | Assign i j =>
      with_local i (fun a => with_local j (fun b =>
        call (ret tt) (fun _ l => (VUnit, <[i := assign a b]> l))))
  | CallGetString i => with_local i (fun h => observe VString (getString h))
  | Less i j =>
      with_local i (fun a => with_local j (fun b => observe VBool (ret (op_lt a b))))
  | Equal i j =>
      with_local i (fun a => with_local j (fun b => observe VBool (ret (op_eq a b))))
  | NotEqual i j =>
      with_local i (fun a => with_local j (fun b => observe VBool (ret (op_ne a b))))
  | EqualString i s => with_local i (fun a => observe VBool (op_eq_string a s))
  | NotEqualString i s => with_local i (fun a => observe VBool (op_ne_string a s))
  | EqualID i id => with_local i (fun a => observe VBool (ret (op_eq_id a id)))
  | NotEqualID i id => with_local i (fun a => observe VBool (ret (op_ne_id a id)))
  | LessID i id => with_local i (fun a => observe VBool (ret (op_lt_id a id)))
  end.

(** The client after a sequence of operations; a failed assertion ends the
    process, so what follows it is not executed. *)
Fixpoint run (ops : list op) (cl : client) : client :=
  match ops with
  | [] => cl
  | o :: rest =>
      match exec o cl with
      | (Ret _, cl') => run rest cl'
      | (_, cl') => cl'
      end
  end.

(** The text an operation hands to the table for interning, if any. *)
Definition interned_by (o : op) : option string :=
  match o with
  | CallInternString str => Some str
  | NewFromString str => Some str
  | NewFromCStr c_str => Some (string_of_c_str c_str)
  | _ => None
  end.

(** The texts handed to the table so far: the empty string of
    [s_kEmptyString], then those of the operations. *)
Definition texts_interned (ops : list op) : list string :=
  EmptyString :: omap interned_by ops.

(** The client at the start of [main]: no handle variable yet. *)
Definition client_start : client :=
  {| globals := program_start; locals := [] |}.

(** *** The invariant of the table *)

Definition registry_invariant (m : gmap Z string) : Prop :=
  forall k text, m !! k = Some text -> hash_value_of text = k.

(** A handle is bound when its position designates the node of its hash
    value and that node is in the table. *)
Definition bound (m : gmap Z string) (h : HashString) : Prop :=
  m_mapPosition h = Some (m_hashValue h) /\ is_Some (m !! m_hashValue h).

(** Every handle the client can reach is bound. *)
Definition well_bound (cl : client) : Prop :=
  bound (s_internedStrings (globals cl)) (s_kEmptyString (globals cl)) /\
  Forall (bound (s_internedStrings (globals cl))) (locals cl).

(** The statics once [text] has been handed to the table: the effect that
    [internString] and the constructor from text have in common. *)
Definition register (text : string) (g : statics) : statics :=
  {| s_internedStrings :=
       (StdMap.insert (hash_value_of text, text) (s_internedStrings g)).1;
     s_kEmptyString := s_kEmptyString g |}.

(** [HashString const HashString::s_kEmptyString("");] run on the
    process: the constructor from a character sequence, then the handle is
    stored in the static object. *)
Definition define_kEmptyString (p : process) : outcome unit * process :=
  match in_process true (HashString_from_c_str EmptyString) p with
  | (Ret e, p') =>
      (Ret tt,
       {| s_schwarzCounter := s_schwarzCounter p';
          p_internedStrings := p_internedStrings p';
          p_stringHash := p_stringHash p';
          p_kEmptyString := e |})
  | (AssertFail msg, p') => (AssertFail msg, p')
  | (Undefined, p') => (Undefined, p')
  end.

(** ** Properties *)

Ltac unfold_m :=
  unfold iter_second, get_internedStrings, set_internedStrings,
    get_kEmptyString, undefined, assert_, bind, ret in *;
  simpl in *.

(** *** The map *)

Lemma find_not_cend (m : gmap Z string) (k : Z) :
  StdMap.find m k <> StdMap.cend m <-> is_Some (m !! k).
Proof.
  unfold StdMap.find, StdMap.cend.
  destruct (m !! k) as [v|]; split; intros H.
  - eauto.
  - discriminate.
  - congruence.
  - destruct H as [v H]. discriminate.
Qed.

Lemma insert_present (m : gmap Z string) (k : Z) (v w : string) :
  m !! k = Some w -> StdMap.insert (k, v) m = (m, (Some k, false)).
Proof. intros H. unfold StdMap.insert. simpl. by rewrite H. Qed.

Lemma insert_absent (m : gmap Z string) (k : Z) (v : string) :
  m !! k = None -> StdMap.insert (k, v) m = (<[k := v]> m, (Some k, true)).
Proof. intros H. unfold StdMap.insert. simpl. by rewrite H. Qed.

Lemma insert_subseteq (m : gmap Z string) (p : Z * string) :
  m ⊆ (StdMap.insert p m).1.
Proof.
  unfold StdMap.insert. destruct (m !! p.1) eqn:E; simpl.
  - done.
  - by apply insert_subseteq.
Qed.

Lemma insert_lookup (m : gmap Z string) (p : Z * string) (k : Z) (v : string) :
  (StdMap.insert p m).1 !! k = Some v ->
  m !! k = Some v \/ (m !! k = None /\ k = p.1 /\ v = p.2).
Proof.
  unfold StdMap.insert. destruct (m !! p.1) eqn:E; simpl.
  - by left.
  - destruct (decide (p.1 = k)) as [<-|Hne].
    + rewrite lookup_insert_eq. intros [= <-]. by right.
    + rewrite lookup_insert_ne by done. by left.
Qed.

Lemma insert_lookup_key (m : gmap Z string) (k : Z) (v : string) :
  (StdMap.insert (k, v) m).1 !! k = Some (default v (m !! k)).
Proof.
  unfold StdMap.insert. simpl. destruct (m !! k) eqn:E; simpl.
  - done.
  - by rewrite lookup_insert_eq.
Qed.

Lemma insert_position (m : gmap Z string) (p : Z * string) :
  (StdMap.insert p m).2.1 = Some p.1.
Proof. unfold StdMap.insert. by destruct (m !! p.1). Qed.

(** *** The static functions, one equation each *)

Lemma statics_eta (g : statics) :
  {| s_internedStrings := s_internedStrings g;
     s_kEmptyString := s_kEmptyString g |} = g.
Proof. by destruct g. Qed.

Lemma register_present (text w : string) (g : statics) :
  s_internedStrings g !! hash_value_of text = Some w -> register text g = g.
Proof.
  intros H. unfold register. rewrite (insert_present _ _ _ _ H). apply statics_eta.
Qed.

Lemma isStringInterned_id_eq (id : Z) (g : statics) :
  isStringInterned_id id g
  = (Ret (bool_decide (is_Some (s_internedStrings g !! id))), g).
Proof.
  unfold isStringInterned_id. unfold_m.
  destruct (decide _) as [H|H]; apply find_not_cend in H || rewrite find_not_cend in H.
  - by rewrite bool_decide_eq_true_2.
  - by rewrite bool_decide_eq_false_2.
Qed.

Lemma isStringInterned_eq (str : string) (g : statics) :
  isStringInterned str g
  = (Ret (bool_decide (is_Some (s_internedStrings g !! hash_value_of str))), g).
Proof. apply isStringInterned_id_eq. Qed.

Lemma internString_eq (str : string) (g : statics) :
  internString str g = (Ret (hash_value_of str), register str g).
Proof.
  unfold internString. unfold_m.
  destruct (decide _) as [H|H].
  - apply find_not_cend in H as [w H]. by rewrite (register_present _ _ _ H).
  - done.
Qed.

Lemma getStringFromHash_eq (id : Z) (g : statics) :
  getStringFromHash id g
  = (Ret (default EmptyString (s_internedStrings g !! id)), g).
Proof.
  unfold getStringFromHash. unfold_m.
  destruct (decide _) as [H|H].
  - apply find_not_cend in H as [w H].
    unfold StdMap.find, StdMap.deref. by rewrite H; simpl; rewrite H.
  - rewrite find_not_cend in H.
    destruct (s_internedStrings g !! id) eqn:E; [|done].
    exfalso. eauto.
Qed.

Lemma HashString_from_string_eq (str : string) (g : statics) :
  HashString_from_string str g
  = (Ret {| m_mapPosition := Some (hash_value_of str);
            m_hashValue := hash_value_of str |}, register str g).
Proof.
  unfold HashString_from_string. unfold_m.
  by rewrite insert_position.
Qed.

Lemma HashString_from_id_eq (ndebug : bool) (id : Z) (g : statics) :
  HashString_from_id ndebug id g =
  match s_internedStrings g !! id with
  | Some _ => (Ret {| m_mapPosition := Some id; m_hashValue := id |}, g)
  | None =>
      if ndebug
      then (Ret {| m_mapPosition := None; m_hashValue := id |}, g)
      else (AssertFail "Uninterned HashString Referenced", g)
  end.
Proof.
  unfold HashString_from_id. unfold_m. unfold StdMap.find, StdMap.cend.
  destruct (s_internedStrings g !! id) eqn:E; simpl.
  - done.
  - by destruct ndebug.
Qed.

Lemma getString_bound (h : HashString) (g : statics) :
  bound (s_internedStrings g) h ->
  getString h g
  = (Ret (default EmptyString (s_internedStrings g !! m_hashValue h)), g).
Proof.
  intros [Hp [w Hw]]. unfold getString. unfold_m.
  rewrite Hp. unfold StdMap.deref. by rewrite Hw.
Qed.

Lemma iter_second_globals (it : option Z) (g : statics) :
  (iter_second it g).2 = g.
Proof. unfold_m. by destruct (StdMap.deref _ _). Qed.

Lemma op_eq_string_globals (h : HashString) (other : string) (g : statics) :
  (op_eq_string h other g).2 = g.
Proof.
  unfold op_eq_string, getString. unfold_m. by destruct (StdMap.deref _ _).
Qed.

Lemma op_ne_string_globals (h : HashString) (other : string) (g : statics) :
  (op_ne_string h other g).2 = g.
Proof.
  unfold op_ne_string, getString. unfold_m. by destruct (StdMap.deref _ _).
Qed.

(** *** What an operation does to the statics *)

Lemma call_globals {A} (c : M A) k (cl : client) :
  globals (call c k cl).2 = (c (globals cl)).2.
Proof. unfold call. by destruct (c (globals cl)) as [[a|msg|] g]. Qed.

Lemma exec_globals (o : op) (cl : client) :
  globals (exec o cl).2 =
  match interned_by o with
  | Some text => register text (globals cl)
  | None => globals cl
  end.
Proof.
  destruct o; simpl; unfold observe, declare, with_local;
    repeat match goal with
           | |- context [locals cl !! ?i] => destruct (locals cl !! i)
           end;
    rewrite ?call_globals; try done.
  all: first
    [ by rewrite isStringInterned_eq
    | by rewrite isStringInterned_id_eq
    | by rewrite internString_eq
    | by rewrite getStringFromHash_eq
    | by rewrite HashString_from_string_eq
    | by unfold HashString_from_c_str; rewrite HashString_from_string_eq
    | by rewrite HashString_from_id_eq; unfold NDEBUG;
         destruct (s_internedStrings (globals cl) !! _)
    | apply iter_second_globals
    | apply op_eq_string_globals
    | apply op_ne_string_globals ].
Qed.

Lemma register_subseteq (text : string) (g : statics) :
  s_internedStrings g ⊆ s_internedStrings (register text g).
Proof. apply insert_subseteq. Qed.

Lemma register_invariant (text : string) (g : statics) :
  registry_invariant (s_internedStrings g) ->
  registry_invariant (s_internedStrings (register text g)).
Proof.
  intros Hinv k t Hk. apply insert_lookup in Hk as [Hk|(_ & -> & ->)].
  - by apply Hinv.
  - done.
Qed.

Lemma register_lookup (text : string) (g : statics) :
  s_internedStrings (register text g) !! hash_value_of text
  = Some (default text (s_internedStrings g !! hash_value_of text)).
Proof. apply insert_lookup_key. Qed.

Lemma exec_subseteq (o : op) (cl : client) :
  s_internedStrings (globals cl) ⊆ s_internedStrings (globals (exec o cl).2).
Proof.
  rewrite exec_globals. destruct (interned_by o); [apply register_subseteq|done].
Qed.

Lemma exec_invariant (o : op) (cl : client) :
  registry_invariant (s_internedStrings (globals cl)) ->
  registry_invariant (s_internedStrings (globals (exec o cl).2)).
Proof.
  rewrite exec_globals. destruct (interned_by o); [apply register_invariant|done].
Qed.

Lemma exec_kEmptyString (o : op) (cl : client) :
  s_kEmptyString (globals (exec o cl).2) = s_kEmptyString (globals cl).
Proof. rewrite exec_globals. by destruct (interned_by o). Qed.

(** *** Sequences of operations *)

Lemma run_cons (o : op) (rest : list op) (cl : client) :
  run (o :: rest) cl = (exec o cl).2 \/ run (o :: rest) cl = run rest (exec o cl).2.
Proof. simpl. destruct (exec o cl) as [[v|msg|] cl']; auto. Qed.

Lemma run_preserves (P : statics -> Prop) :
  (forall o cl, P (globals cl) -> P (globals (exec o cl).2)) ->
  forall ops cl, P (globals cl) -> P (globals (run ops cl)).
Proof.
  intros Hstep ops. induction ops as [|o rest IH]; intros cl HP; [done|].
  destruct (run_cons o rest cl) as [-> | ->]; auto.
Qed.

Lemma run_subseteq (ops : list op) (cl : client) :
  s_internedStrings (globals cl) ⊆ s_internedStrings (globals (run ops cl)).
Proof.
  apply (run_preserves (fun g => s_internedStrings (globals cl) ⊆ s_internedStrings g));
    [|done].
  intros o cl' H. etrans; [exact H|apply exec_subseteq].
Qed.

Lemma run_invariant (ops : list op) (cl : client) :
  registry_invariant (s_internedStrings (globals cl)) ->
  registry_invariant (s_internedStrings (globals (run ops cl))).
Proof. apply (run_preserves (fun g => registry_invariant (s_internedStrings g))), exec_invariant. Qed.

Lemma run_kEmptyString (ops : list op) (cl : client) :
  s_kEmptyString (globals (run ops cl)) = s_kEmptyString (globals cl).
Proof.
  apply (run_preserves (fun g => s_kEmptyString g = s_kEmptyString (globals cl)));
    [|done].
  intros o cl' H. by rewrite exec_kEmptyString.
Qed.

Lemma run_lookup (ops : list op) (cl : client) (k : Z) (text : string) :
  s_internedStrings (globals cl) !! k = Some text ->
  s_internedStrings (globals (run ops cl)) !! k = Some text.
Proof. intros H. eapply lookup_weaken; [exact H|apply run_subseteq]. Qed.

(** Every entry of the table was there at the start or is the text of an
    interning operation, under the key that text hashes to. *)
Lemma run_origin (ops : list op) (cl : client) (k : Z) (text : string) :
  s_internedStrings (globals (run ops cl)) !! k = Some text ->
  s_internedStrings (globals cl) !! k = Some text
  \/ (text ∈ omap interned_by ops /\ k = hash_value_of text).
Proof.
  revert cl. induction ops as [|o rest IH]; intros cl H; [by left|].
  assert (Hstep : s_internedStrings (globals (exec o cl).2) !! k = Some text ->
    s_internedStrings (globals cl) !! k = Some text
    \/ (text ∈ omap interned_by (o :: rest) /\ k = hash_value_of text)).
  { rewrite exec_globals. simpl. destruct (interned_by o) as [t|]; [|by left].
    intros Hk. apply insert_lookup in Hk as [Hk|(_ & -> & ->)]; [by left|].
    right. split; [apply list_elem_of_here|done]. }
  destruct (run_cons o rest cl) as [E|E]; rewrite E in H; [by apply Hstep|].
  apply IH in H as [H|[Hin ->]]; [by apply Hstep|].
  right. split; [|done]. simpl. destruct (interned_by o); [by apply list_elem_of_further|done].
Qed.

(** *** The start of the program *)

Lemma program_start_eq :
  program_start =
  {| s_internedStrings := {[ hash_value_of EmptyString := EmptyString ]};
     s_kEmptyString := {| m_mapPosition := Some (hash_value_of EmptyString);
                          m_hashValue := hash_value_of EmptyString |} |}.
Proof.
  unfold program_start, HashString_from_c_str.
  change (string_of_c_str EmptyString) with EmptyString.
  rewrite HashString_from_string_eq. unfold register, HashStringInitilizer_ctor. simpl.
  by rewrite insert_absent by apply lookup_empty.
Qed.

Lemma program_start_invariant :
  registry_invariant (s_internedStrings program_start).
Proof.
  rewrite program_start_eq. cbn [s_internedStrings]. intros k text H.
  apply lookup_singleton_Some in H as [<- <-]. done.
Qed.

Lemma reachable_invariant (ops : list op) :
  registry_invariant (s_internedStrings (globals (run ops client_start))).
Proof. apply run_invariant, program_start_invariant. Qed.

Lemma reachable_empty_string (ops : list op) :
  s_internedStrings (globals (run ops client_start)) !! hash_value_of EmptyString
  = Some EmptyString.
Proof.
  apply run_lookup. unfold client_start. cbn [globals].
  rewrite program_start_eq. cbn [s_internedStrings]. apply lookup_singleton_eq.
Qed.

(** Every text of the table of a running program is one of the texts
    handed to it, stored under the key it hashes to. *)
Lemma reachable_origin (ops : list op) (k : Z) (text : string) :
  s_internedStrings (globals (run ops client_start)) !! k = Some text ->
  text ∈ texts_interned ops /\ k = hash_value_of text.
Proof.
  intros H. apply run_origin in H as [H|[Hin ->]].
  - unfold client_start in H. cbn [globals] in H.
    rewrite program_start_eq in H. cbn [s_internedStrings] in H.
    apply lookup_singleton_Some in H as [<- <-].
    split; [apply list_elem_of_here|done].
  - split; [by apply list_elem_of_further|done].
Qed.

(** *** Handles stay bound *)

Lemma bound_weaken (m m' : gmap Z string) (h : HashString) :
  m ⊆ m' -> bound m h -> bound m' h.
Proof.
  intros Hsub [Hp [w Hw]]. split; [done|].
  exists w. by eapply lookup_weaken.
Qed.

Lemma from_string_bound (str : string) (g : statics) :
  bound (s_internedStrings (register str g))
    {| m_mapPosition := Some (hash_value_of str); m_hashValue := hash_value_of str |}.
Proof. split; [done|]. cbn [m_hashValue]. rewrite register_lookup. eauto. Qed.

Lemma copy_bound (m : gmap Z string) (h : HashString) :
  bound m h ->
  bound m {| m_mapPosition := m_mapPosition h; m_hashValue := m_hashValue h |}.
Proof. by intros [? ?]. Qed.

(** An operation leaves the handle variables alone, declares one more
    bound handle, or overwrites one variable with the value of another. *)
Lemma exec_locals (o : op) (cl : client) :
  well_bound cl ->
  locals (exec o cl).2 = locals cl
  \/ (exists h, locals (exec o cl).2 = locals cl ++ [h]
                /\ bound (s_internedStrings (globals (exec o cl).2)) h)
  \/ (exists i a b, locals (exec o cl).2 = <[i := assign a b]> (locals cl)
                    /\ b ∈ locals cl).
Proof.
  intros [Hk Hl].
  destruct o; cbn [exec]; unfold observe, declare, with_local;
    repeat match goal with
           | |- context [locals cl !! ?i] => destruct (locals cl !! i) eqn:?
           end;
    unfold call;
    rewrite ?isStringInterned_eq, ?isStringInterned_id_eq, ?internString_eq,
      ?getStringFromHash_eq, ?HashString_from_string_eq;
    try (by left).
  - right; left. eexists; split; [done|]. by apply copy_bound.
  - right; left. eexists; split; [done|]. apply copy_bound.
    eapply Forall_lookup_1 in Hl; eauto.
  - right; left. eexists; split; [done|]. apply from_string_bound.
  - rewrite HashString_from_id_eq. unfold NDEBUG.
    destruct (s_internedStrings (globals cl) !! id) eqn:E; [|by left].
    right; left. eexists; split; [done|]. split; [done|]. simpl. rewrite E. eauto.
  - unfold HashString_from_c_str. rewrite HashString_from_string_eq.
    right; left. eexists; split; [done|]. apply from_string_bound.
  - right; right. do 3 eexists. split; [done|]. by eapply list_elem_of_lookup_2.
  - unfold getString. destruct (iter_second _ _) as [[?|?|] ?]; by left.
  - unfold op_eq_string, getString, bind.
    destruct (iter_second _ _) as [[?|?|] ?]; by left.
  - unfold op_ne_string, getString, bind.
    destruct (iter_second _ _) as [[?|?|] ?]; by left.
Qed.

Lemma exec_well_bound (o : op) (cl : client) :
  well_bound cl -> well_bound (exec o cl).2.
Proof.
  intros Hwb. pose proof Hwb as [Hk Hl].
  assert (Hl' : Forall (bound (s_internedStrings (globals (exec o cl).2))) (locals cl)).
  { eapply Forall_impl; [exact Hl|]. intros h. apply bound_weaken, exec_subseteq. }
  split.
  - rewrite exec_kEmptyString. eapply bound_weaken; [apply exec_subseteq|done].
  - destruct (exec_locals o cl Hwb) as [->|[(h & -> & Hh)|(i & a & b & -> & Hb)]].
    + done.
    + apply Forall_app_2; [done|]. by apply Forall_singleton.
    + apply Forall_insert; [done|]. apply copy_bound.
      rewrite Forall_forall in Hl'. by apply Hl'.
Qed.

Lemma client_start_well_bound : well_bound client_start.
Proof.
  unfold well_bound, client_start. cbn [globals locals].
  rewrite program_start_eq. cbn [s_internedStrings s_kEmptyString].
  split; [|by apply Forall_nil].
  split; [done|]. cbn [m_hashValue]. rewrite lookup_singleton_eq. eauto.
Qed.

Lemma run_well_bound (ops : list op) (cl : client) :
  well_bound cl -> well_bound (run ops cl).
Proof.
  revert cl. induction ops as [|o rest IH]; intros cl H; [done|].
  destruct (run_cons o rest cl) as [-> | ->]; auto using exec_well_bound.
Qed.

(** No operation of a running program meets undefined behaviour. *)
Lemma reachable_defined (ops : list op) (o : op) :
  (exec o (run ops client_start)).1 <> Undefined.
Proof.
  pose proof (run_well_bound ops _ client_start_well_bound) as [Hk Hl].
  set (cl := run ops client_start) in *.
  assert (Hget : forall i h, locals cl !! i = Some h ->
            getString h (globals cl)
            = (Ret (default EmptyString (s_internedStrings (globals cl) !! m_hashValue h)),
               globals cl)).
  { intros i h Hi. apply getString_bound. eapply Forall_lookup_1 in Hl; eauto. }
  destruct o; cbn [exec]; unfold observe, declare, with_local;
    repeat match goal with
           | |- context [locals cl !! ?i] => destruct (locals cl !! i) eqn:?
           end;
    unfold call, op_eq_string, op_ne_string, bind;
    rewrite ?isStringInterned_eq, ?isStringInterned_id_eq, ?internString_eq,
      ?getStringFromHash_eq, ?HashString_from_string_eq;
    try (erewrite Hget by eauto);
    try done.
  - rewrite HashString_from_id_eq. unfold NDEBUG.
    by destruct (s_internedStrings (globals cl) !! id).
Qed.

(** *** The claims *)

(** C1 - Round trip.  In a running program, when no text handed to the
    table before (the empty string of the constant included) is different
    from [s] and yet hashes to the identifier of [s], [internString s]
    returns an identifier that [getStringFromHash] resolves to [s]. *)
Theorem C1_resolve_intern_roundtrip (ops : list op) (s : string) :
  (forall t, t ∈ texts_interned ops -> t <> s ->
             hash_value_of t <> hash_value_of s) ->
  exists id g',
    internString s (globals (run ops client_start)) = (Ret id, g')
    /\ getStringFromHash id g' = (Ret s, g').
Proof.
  intros Hfree. rewrite internString_eq. eexists _, _. split; [done|].
  rewrite getStringFromHash_eq, register_lookup. do 2 f_equal.
  destruct (s_internedStrings _ !! hash_value_of s) as [t|] eqn:E; [|done].
  apply reachable_origin in E as [Hin Hk]. cbn [default].
  destruct (decide (t = s)) as [->|Hne]; [done|].
  by destruct (Hfree t Hin Hne).
Qed.

(** C2 - Registry invariant.  Whatever operation a client performs, if
    every key of the table is the hash of the text stored under it before
    the operation, it is so after it, and every entry of the table is still
    there afterwards with the same text. *)
Theorem C2_operations_preserve_registry (o : op) (cl : client) :
  registry_invariant (s_internedStrings (globals cl)) ->
  registry_invariant (s_internedStrings (globals (exec o cl).2))
  /\ forall k text,
       s_internedStrings (globals cl) !! k = Some text ->
       s_internedStrings (globals (exec o cl).2) !! k = Some text.
Proof.
  intros Hinv. split; [by apply exec_invariant|].
  intros k text H. eapply lookup_weaken; [exact H|apply exec_subseteq].
Qed.

(** C3 - Fatal path.  Constructing a handle from an identifier that has no
    entry in the table fails the assertion, which aborts the process, and
    no handle is declared; an identifier with an entry gives a handle bound
    to it; either way the statics are what they were. *)
Theorem C3_handle_from_unknown_id_is_fatal (str_id : Z) (cl : client) :
  (s_internedStrings (globals cl) !! str_id = None ->
     HashString_from_id NDEBUG str_id (globals cl)
       = (AssertFail "Uninterned HashString Referenced", globals cl)
     /\ exec (NewFromID str_id) cl
        = (AssertFail "Uninterned HashString Referenced", cl))
  /\ (is_Some (s_internedStrings (globals cl) !! str_id) ->
        HashString_from_id NDEBUG str_id (globals cl)
        = (Ret {| m_mapPosition := Some str_id; m_hashValue := str_id |}, globals cl))
  /\ (HashString_from_id NDEBUG str_id (globals cl)).2 = globals cl.
Proof.
  cbn [exec]. unfold declare, call. rewrite HashString_from_id_eq. unfold NDEBUG.
  destruct (s_internedStrings (globals cl) !! str_id) as [w|] eqn:E.
  - split; [done|]. split; [done|done].
  - split; [|split; [by intros [? ?]|done]].
    intros _. split; [done|]. by destruct cl.
Qed.

(** C4 - Idempotence.  [internString s] returns the hash of [s] in every
    state; and once it has been called, whatever the client does next, a
    further call returns the same identifier and leaves the statics
    untouched. *)
Theorem C4_internString_idempotent (s : string) (g : statics)
    (vars : list HashString) (ops : list op) :
  (internString s g).1 = Ret (hash_value_of s)
  /\ internString s
       (globals (run ops {| globals := (internString s g).2; locals := vars |}))
     = (Ret (hash_value_of s),
        globals (run ops {| globals := (internString s g).2; locals := vars |})).
Proof.
  rewrite !internString_eq. split; [done|]. cbn [snd]. f_equal.
  eapply register_present, run_lookup. cbn [globals]. apply register_lookup.
Qed.

(** C5 - First text wins.  Let [s1] and [s2] be different texts with the
    same identifier, and let [s1] be handed to the table (by
    [internString] or by the constructor from text) while the identifier
    has no entry.  Then, whatever the client does next, [internString s2]
    returns that identifier and changes nothing, the constructor from
    [s2] gives a handle with that identifier whose text is [s1] and
    changes nothing, and the identifier resolves to [s1]. *)
Theorem C5_first_text_is_canonical (s1 s2 : string) (g g1 : statics)
    (vars : list HashString) (ops : list op) :
  s1 <> s2 ->
  hash_value_of s1 = hash_value_of s2 ->
  s_internedStrings g !! hash_value_of s1 = None ->
  g1 = (internString s1 g).2 \/ g1 = (HashString_from_string s1 g).2 ->
  let g2 := globals (run ops {| globals := g1; locals := vars |}) in
  internString s2 g2 = (Ret (hash_value_of s1), g2)
  /\ (exists h, HashString_from_string s2 g2 = (Ret h, g2)
                /\ m_hashValue h = hash_value_of s1
                /\ getString h g2 = (Ret s1, g2))
  /\ getStringFromHash (hash_value_of s1) g2 = (Ret s1, g2).
Proof.
  intros Hne Hhash Hfresh Hg1 g2.
  assert (Hg1' : g1 = register s1 g).
  { destruct Hg1 as [-> | ->];
      [by rewrite internString_eq|by rewrite HashString_from_string_eq]. }
  assert (H1 : s_internedStrings g2 !! hash_value_of s1 = Some s1).
  { apply run_lookup. cbn [globals]. subst g1.
    by rewrite register_lookup, Hfresh. }
  assert (H2 : s_internedStrings g2 !! hash_value_of s2 = Some s1)
    by (by rewrite <- Hhash).
  split; [|split].
  - rewrite internString_eq, Hhash. f_equal. by eapply register_present.
  - eexists. rewrite HashString_from_string_eq, (register_present _ _ _ H2).
    split; [done|]. split; [done|].
    rewrite getString_bound; cbn [m_hashValue].
    + by rewrite H2.
    + split; [done|]. cbn [m_hashValue]. eauto.
  - by rewrite getStringFromHash_eq, H1.
Qed.

(** C6 - [getStringFromHash] is a pure lookup: it returns the text stored
    under the identifier when there is one and the empty string when there
    is none, and the statics after the call are the statics before it. *)
Theorem C6_getStringFromHash_pure_lookup (id : Z) (g : statics) :
  (forall text, s_internedStrings g !! id = Some text ->
                (getStringFromHash id g).1 = Ret text)
  /\ (s_internedStrings g !! id = None ->
        (getStringFromHash id g).1 = Ret EmptyString)
  /\ (getStringFromHash id g).2 = g.
Proof.
  rewrite getStringFromHash_eq. cbn [fst snd].
  split; [|split; [|done]]; by intros; simplify_option_eq.
Qed.

(** C7 - Comparisons.  Two handles are [==] exactly when their hash
    values are equal; a handle is [==] to an identifier exactly when its
    hash value is that identifier; a handle whose text is [text] is [==]
    to a string exactly when [text] is that string; and each [!=] returns
    the negation of the [==] with the same operands. *)
Theorem C7_equality_operators (a b : HashString) (id : Z) (other : string)
    (g : statics) :
  (op_eq a b = true <-> m_hashValue a = m_hashValue b)
  /\ op_ne a b = negb (op_eq a b)
  /\ (op_eq_id a id = true <-> m_hashValue a = id)
  /\ op_ne_id a id = negb (op_eq_id a id)
  /\ (forall text, getString a g = (Ret text, g) ->
        exists r, op_eq_string a other g = (Ret r, g)
                  /\ (r = true <-> text = other)
                  /\ op_ne_string a other g = (Ret (negb r), g)).
Proof.
  unfold op_eq, op_ne, op_eq_id, op_ne_id, op_eq_string, op_ne_string, bind, ret.
  repeat split; try apply Z.eqb_eq.
  intros text ->. eexists. split; [done|]. split; [apply String.eqb_eq|done].
Qed.

(** C8, as amended - [isStringInterned s] is true right after
    [internString s] and stays true whatever the client does next; in a
    running program it is false as long as no text with the identifier of
    [s] has been handed to the table, the empty string of the constant
    included. *)
Theorem C8_isStringInterned_after_intern (s : string) :
  (forall g vars ops,
     (isStringInterned s
        (globals (run ops {| globals := (internString s g).2; locals := vars |}))).1
     = Ret true)
  /\ (forall ops,
        (forall t, t ∈ texts_interned ops -> hash_value_of t <> hash_value_of s) ->
        (isStringInterned s (globals (run ops client_start))).1 = Ret false).
Proof.
  split.
  - intros g vars ops. rewrite isStringInterned_eq, internString_eq. cbn [fst snd].
    f_equal. apply bool_decide_eq_true_2. eexists.
    apply run_lookup. cbn [globals]. apply register_lookup.
  - intros ops Hfree. rewrite isStringInterned_eq. cbn [fst].
    f_equal. apply bool_decide_eq_false_2. intros [t Ht].
    apply reachable_origin in Ht as [Hin Hk]. by destruct (Hfree t Hin).
Qed.

(** C9 - The default handle.  In a running program the default
    constructor returns a handle and changes nothing; that handle is [==]
    to [s_kEmptyString]; its text is the empty string; and the empty
    string is in the table from the start of the program. *)
Theorem C9_default_handle_is_empty_string (ops : list op) :
  s_internedStrings program_start !! hash_value_of EmptyString = Some EmptyString
  /\ exists h,
       HashString_default (globals (run ops client_start))
       = (Ret h, globals (run ops client_start))
       /\ op_eq h (s_kEmptyString (globals (run ops client_start))) = true
       /\ getString h (globals (run ops client_start))
          = (Ret EmptyString, globals (run ops client_start)).
Proof.
  split.
  { rewrite program_start_eq. apply lookup_singleton_eq. }
  pose proof (run_well_bound ops _ client_start_well_bound) as [Hk _].
  pose proof (run_kEmptyString ops client_start) as He.
  unfold client_start at 2 in He. cbn [globals] in He.
  rewrite program_start_eq in He. cbn [s_kEmptyString] in He.
  eexists. split; [done|]. split.
  - unfold op_eq. cbn [m_hashValue]. apply Z.eqb_refl.
  - rewrite getString_bound by (by apply copy_bound).
    cbn [m_hashValue]. by rewrite He, reachable_empty_string.
Qed.

(** C10 - The sentinel.  In a running program, for an identifier that has
    no entry in the table, [getStringFromHash] returns the same as it does
    for the identifier that [internString] returns for the empty string:
    the empty string. *)
Theorem C10_not_found_is_empty_string (ops : list op) (id : Z) :
  s_internedStrings (globals (run ops client_start)) !! id = None ->
  exists id0,
    internString EmptyString (globals (run ops client_start))
    = (Ret id0, globals (run ops client_start))
    /\ getStringFromHash id0 (globals (run ops client_start))
       = (Ret EmptyString, globals (run ops client_start))
    /\ getStringFromHash id (globals (run ops client_start))
       = (Ret EmptyString, globals (run ops client_start)).
Proof.
  intros Hid. pose proof (reachable_empty_string ops) as He.
  eexists. rewrite internString_eq, (register_present _ _ _ He).
  split; [done|]. rewrite !getStringFromHash_eq, He, Hid. done.
Qed.

(** *** Further properties of the table *)


Lemma register_lookup_ne (text : string) (id : Z) (g : statics) :
  id <> hash_value_of text ->
  s_internedStrings (register text g) !! id = s_internedStrings g !! id.
Proof.
  intros Hne. unfold register, StdMap.insert. cbn [s_internedStrings fst snd].
  destruct (s_internedStrings g !! hash_value_of text); cbn [fst]; [done|].
  by rewrite lookup_insert_ne.
Qed.

Lemma register_size (text : string) (g : statics) :
  size (s_internedStrings (register text g))
  = if bool_decide (is_Some (s_internedStrings g !! hash_value_of text))
    then size (s_internedStrings g)
    else S (size (s_internedStrings g)).
Proof.
  unfold register, StdMap.insert. cbn [s_internedStrings fst snd].
  destruct (s_internedStrings g !! hash_value_of text) as [w|] eqn:E; cbn [fst].
  - by rewrite bool_decide_eq_true_2 by eauto.
  - rewrite bool_decide_eq_false_2 by (by intros [? ?]).
    by apply map_size_insert_None.
Qed.

(** X1 - The two ways of interning agree.  [internString] (which looks the
    key up first) and the constructor from text (which relies on [insert]
    keeping an existing node) leave the same statics; the identifier the
    first returns is the hash value of the handle the second returns, and
    the text of that handle is what the identifier resolves to. *)
Theorem X1_interning_paths_agree (s : string) (g : statics) :
  (internString s g).2 = (HashString_from_string s g).2
  /\ exists h,
       (HashString_from_string s g).1 = Ret h
       /\ (internString s g).1 = Ret (m_hashValue h)
       /\ getString h (HashString_from_string s g).2
          = getStringFromHash (m_hashValue h) (HashString_from_string s g).2.
Proof.
  rewrite internString_eq, HashString_from_string_eq. cbn [fst snd].
  split; [done|]. eexists. split; [done|]. split; [done|].
  rewrite getString_bound by apply from_string_bound.
  by rewrite getStringFromHash_eq.
Qed.

(** X2 - Interning a text touches one key only.  For an identifier other
    than the hash of [s], what [getStringFromHash] and [isStringInterned]
    return after [internString s] is what they returned before. *)
Theorem X2_internString_frame (s : string) (id : Z) (g : statics) :
  id <> hash_value_of s ->
  (getStringFromHash id (internString s g).2).1 = (getStringFromHash id g).1
  /\ (isStringInterned_id id (internString s g).2).1 = (isStringInterned_id id g).1.
Proof.
  intros Hne.
  rewrite internString_eq, !getStringFromHash_eq, !isStringInterned_id_eq.
  cbn [fst snd]. by rewrite register_lookup_ne.
Qed.

(** X3 - [internString] adds one entry or none.  When [isStringInterned]
    says the text is interned, [internString] leaves the statics as they
    are; when it says it is not, the table has exactly one more entry
    afterwards. *)
Theorem X3_internString_size (s : string) (g : statics) :
  ((isStringInterned s g).1 = Ret true -> (internString s g).2 = g)
  /\ ((isStringInterned s g).1 = Ret false ->
        size (s_internedStrings (internString s g).2)
        = S (size (s_internedStrings g))).
Proof.
  rewrite isStringInterned_eq, internString_eq. cbn [fst snd].
  split; intros [= H].
  - apply bool_decide_eq_true_1 in H as [w Hw]. by eapply register_present.
  - by rewrite register_size, H.
Qed.

(** X4 - The table grows by at most one entry for each operation that
    hands it a text, and not at all for the others. *)
Theorem X4_table_growth (ops : list op) (cl : client) :
  (size (s_internedStrings (globals (run ops cl)))
   <= size (s_internedStrings (globals cl)) + length (omap interned_by ops))%nat.
Proof.
  revert cl. induction ops as [|o rest IH]; intros cl; [simpl; lia|].
  assert (Hstep :
    (size (s_internedStrings (globals (exec o cl).2))
     <= size (s_internedStrings (globals cl))
        + length (omap interned_by [o]))%nat).
  { assert (Hl : length (omap interned_by [o])
                 = match interned_by o with Some _ => 1%nat | None => 0%nat end)
      by (simpl; by destruct (interned_by o)).
    rewrite Hl, exec_globals. destruct (interned_by o) as [t|]; [|lia].
    rewrite register_size. case_bool_decide; lia. }
  assert (Hlen : length (omap interned_by (o :: rest))
                 = (length (omap interned_by [o]) + length (omap interned_by rest))%nat).
  { simpl. by destruct (interned_by o). }
  rewrite Hlen.
  destruct (run_cons o rest cl) as [-> | ->]; [lia|].
  specialize (IH (exec o cl).2). lia.
Qed.


(** X6 - Texts that do not collide keep apart.  When [s1] and [s2] have
    different identifiers, neither of which is in the table, then after
    [internString s1] and [internString s2], whatever the client does
    next, the two calls have returned different identifiers and each
    identifier resolves to its own text. *)
Theorem X6_distinct_identifiers_resolve_apart (s1 s2 : string) (g : statics)
    (vars : list HashString) (ops : list op) :
  hash_value_of s1 <> hash_value_of s2 ->
  s_internedStrings g !! hash_value_of s1 = None ->
  s_internedStrings g !! hash_value_of s2 = None ->
  let g2 := globals (run ops {| globals := (internString s2 (internString s1 g).2).2;
                                locals := vars |}) in
  (internString s1 g).1 <> (internString s2 (internString s1 g).2).1
  /\ getStringFromHash (hash_value_of s1) g2 = (Ret s1, g2)
  /\ getStringFromHash (hash_value_of s2) g2 = (Ret s2, g2).
Proof.
  intros Hne H1 H2 g2. subst g2. rewrite !internString_eq. cbn [fst snd].
  split; [congruence|].
  rewrite !getStringFromHash_eq.
  split; do 2 f_equal.
  - erewrite run_lookup; [done|]. cbn [globals].
    by rewrite register_lookup_ne, register_lookup, H1 by done.
  - erewrite run_lookup; [done|]. cbn [globals].
    rewrite register_lookup, register_lookup_ne by congruence. by rewrite H2.
Qed.

(** X7 - [isStringInterned] on an identifier tells what the constructor
    from that identifier will do: it returns true exactly when the
    constructor returns a handle, and false exactly when the constructor
    fails its assertion. *)
Theorem X7_isStringInterned_guards_constructor (id : Z) (g : statics) :
  ((isStringInterned_id id g).1 = Ret true
   <-> exists h, HashString_from_id NDEBUG id g = (Ret h, g))
  /\ ((isStringInterned_id id g).1 = Ret false
      <-> exists msg, HashString_from_id NDEBUG id g = (AssertFail msg, g)).
Proof.
  rewrite isStringInterned_id_eq, HashString_from_id_eq. unfold NDEBUG. cbn [fst].
  destruct (s_internedStrings g !! id) as [w|] eqn:E.
  - rewrite bool_decide_eq_true_2 by eauto.
    split; split; try done; eauto. by intros [? ?].
  - rewrite bool_decide_eq_false_2 by (by intros [? ?]).
    split; split; try done; eauto. by intros [? ?].
Qed.

(** X8 - From the identifier back to the handle.  Once [internString s]
    has returned an identifier, whatever the client does next, the
    constructor from that identifier returns the same handle as the
    constructor from [s], neither changes the statics, and the text of the
    handle is what the identifier resolves to. *)
Theorem X8_handle_from_interned_identifier (s : string) (g : statics)
    (vars : list HashString) (ops : list op) :
  let g2 := globals (run ops {| globals := (internString s g).2; locals := vars |}) in
  exists id h,
    (internString s g).1 = Ret id
    /\ HashString_from_id NDEBUG id g2 = (Ret h, g2)
    /\ HashString_from_string s g2 = (Ret h, g2)
    /\ getString h g2 = getStringFromHash id g2.
Proof.
  intros g2. subst g2. rewrite internString_eq. cbn [fst snd].
  set (g2 := globals (run ops _)).
  assert (H : exists w, s_internedStrings g2 !! hash_value_of s = Some w).
  { eexists. apply run_lookup. cbn [globals]. apply register_lookup. }
  destruct H as [w Hw].
  eexists _, _. split; [done|].
  rewrite HashString_from_id_eq, HashString_from_string_eq, Hw,
    (register_present _ _ _ Hw).
  split; [done|]. split; [done|].
  rewrite getString_bound, getStringFromHash_eq; [done|].
  split; [done|]. cbn [m_hashValue]. eauto.
Qed.

(** *** Further properties of handles *)

Lemma string_of_c_str_NUL_free (c_str : string) :
  NUL_free c_str = true -> string_of_c_str c_str = c_str.
Proof.
  induction c_str as [|c rest IH]; [done|]. simpl.
  destruct (Ascii.eqb c zero); simpl; [done|]. intros H. by rewrite IH.
Qed.

Lemma string_of_c_str_cut (before after : string) :
  NUL_free before = true ->
  string_of_c_str (String.append before (String zero after)) = before.
Proof.
  induction before as [|c rest IH]; [done|]. simpl.
  destruct (Ascii.eqb c zero); simpl; [done|]. intros H. by rewrite IH.
Qed.

(** X9 - A bound handle keeps its text.  Whatever the client does after a
    handle was bound, [getString] returns for it the text it returned
    before, and changes nothing. *)
Theorem X9_handle_text_is_stable (h : HashString) (g : statics)
    (vars : list HashString) (ops : list op) :
  bound (s_internedStrings g) h ->
  exists text,
    getString h g = (Ret text, g)
    /\ getString h (globals (run ops {| globals := g; locals := vars |}))
       = (Ret text, globals (run ops {| globals := g; locals := vars |})).
Proof.
  intros Hb. pose proof Hb as [_ [w Hw]]. exists w.
  rewrite !getString_bound.
  - rewrite Hw. by erewrite run_lookup by (cbn [globals]; exact Hw).
  - eapply bound_weaken; [|exact Hb].
    apply (run_subseteq ops {| globals := g; locals := vars |}).
  - done.
Qed.

(** X10 - In a running program two handle variables are [==] exactly when
    their texts are equal: equal hash values designate the same entry, and
    equal texts hash to the same key. *)
Theorem X10_equal_handles_equal_texts (ops : list op) (i j : nat)
    (a b : HashString) :
  locals (run ops client_start) !! i = Some a ->
  locals (run ops client_start) !! j = Some b ->
  exists ta tb,
    getString a (globals (run ops client_start))
    = (Ret ta, globals (run ops client_start))
    /\ getString b (globals (run ops client_start))
       = (Ret tb, globals (run ops client_start))
    /\ (op_eq a b = true <-> ta = tb).
Proof.
  intros Hi Hj.
  pose proof (run_well_bound ops _ client_start_well_bound) as [_ Hl].
  pose proof (Forall_lookup_1 _ _ _ _ Hl Hi) as Ha.
  pose proof (Forall_lookup_1 _ _ _ _ Hl Hj) as Hb.
  pose proof Ha as [_ [wa Hwa]]. pose proof Hb as [_ [wb Hwb]].
  exists wa, wb. rewrite !getString_bound, Hwa, Hwb by done.
  split; [done|]. split; [done|].
  unfold op_eq. rewrite Z.eqb_eq. split.
  - intros E. rewrite E in Hwa. congruence.
  - intros ->.
    pose proof (reachable_invariant ops _ _ Hwa).
    pose proof (reachable_invariant ops _ _ Hwb). congruence.
Qed.

(** X11 - The order of handles.  [operator<] is irreflexive and
    transitive, exactly one of [a < b], [a == b], [b < a] holds, and
    comparing with the hash value of a handle is comparing with the
    handle. *)
Theorem X11_ordering_is_strict_and_total (a b c : HashString) :
  op_lt a a = false
  /\ (op_lt a b = true -> op_lt b c = true -> op_lt a c = true)
  /\ (op_lt a b = true \/ op_eq a b = true \/ op_lt b a = true)
  /\ (op_lt a b = true -> op_eq a b = false /\ op_lt b a = false)
  /\ (op_eq a b = true -> op_lt a b = false /\ op_lt b a = false)
  /\ op_lt_id a (m_hashValue b) = op_lt a b
  /\ op_eq_id a (m_hashValue b) = op_eq a b.
Proof.
  unfold op_lt, op_eq, op_lt_id, op_eq_id.
  rewrite ?Z.ltb_lt, ?Z.eqb_eq, ?Z.ltb_ge, ?Z.eqb_neq.
  repeat split; lia.
Qed.

(** X12 - In a running program the default constructor returns what the
    constructor from the empty text returns, as a character sequence or as
    a string, and neither changes the statics. *)
Theorem X12_default_is_handle_of_empty_text (ops : list op) :
  HashString_default (globals (run ops client_start))
  = HashString_from_c_str EmptyString (globals (run ops client_start))
  /\ HashString_from_string EmptyString (globals (run ops client_start))
     = (Ret {| m_mapPosition := Some (hash_value_of EmptyString);
               m_hashValue := hash_value_of EmptyString |},
        globals (run ops client_start)).
Proof.
  pose proof (run_kEmptyString ops client_start) as He.
  unfold client_start at 2 in He. cbn [globals] in He.
  rewrite program_start_eq in He. cbn [s_kEmptyString] in He.
  pose proof (reachable_empty_string ops) as Hm.
  unfold HashString_from_c_str. change (string_of_c_str EmptyString) with EmptyString.
  rewrite HashString_from_string_eq, (register_present _ _ _ Hm).
  split; [|done].
  unfold HashString_default, HashString_copy, get_kEmptyString, bind, ret.
  by rewrite He.
Qed.

(** X13 - What [getInternMap] shows.  In a running program it returns the
    table and changes nothing; the table holds the empty string; and each
    of its entries is a text handed to the table so far, under the key
    that text hashes to. *)
Theorem X13_snapshot_entries (ops : list op) :
  exists m,
    getInternMap (globals (run ops client_start))
    = (Ret m, globals (run ops client_start))
    /\ m !! hash_value_of EmptyString = Some EmptyString
    /\ forall k text,
         m !! k = Some text ->
         text ∈ texts_interned ops /\ k = hash_value_of text.
Proof.
  eexists. split; [done|]. split; [apply reachable_empty_string|].
  apply reachable_origin.
Qed.

(** X14 - What can go wrong in a running program.  No operation of the
    client meets undefined behaviour, and the only operation that does not
    return is the constructor from an identifier which has no entry: the
    assertion fails and the client is as it was. *)
Theorem X14_only_the_assertion_fails (ops : list op) (o : op) :
  (exec o (run ops client_start)).1 <> Undefined
  /\ forall msg,
       (exec o (run ops client_start)).1 = AssertFail msg ->
       exists id,
         o = NewFromID id
         /\ s_internedStrings (globals (run ops client_start)) !! id = None
         /\ (exec o (run ops client_start)).2 = run ops client_start.
Proof.
  split; [apply reachable_defined|].
  pose proof (run_well_bound ops _ client_start_well_bound) as [Hk Hl].
  set (cl := run ops client_start) in *.
  assert (Hget : forall i h, locals cl !! i = Some h ->
            getString h (globals cl)
            = (Ret (default EmptyString (s_internedStrings (globals cl) !! m_hashValue h)),
               globals cl)).
  { intros i h Hi. apply getString_bound. eapply Forall_lookup_1 in Hl; eauto. }
  intros msg.
  destruct o; cbn [exec]; unfold observe, declare, with_local;
    repeat match goal with
           | |- context [locals cl !! ?i] => destruct (locals cl !! i) eqn:?
           end;
    unfold call, op_eq_string, op_ne_string, bind;
    rewrite ?isStringInterned_eq, ?isStringInterned_id_eq, ?internString_eq,
      ?getStringFromHash_eq, ?HashString_from_string_eq;
    try (erewrite Hget by eauto);
    try done.
  rewrite HashString_from_id_eq. unfold NDEBUG.
  destruct (s_internedStrings (globals cl) !! id) eqn:E; [done|].
  intros _. exists id. split; [done|]. split; [done|]. by destruct cl.
Qed.

(** X15 - Assignment rebinds one variable.  After [a = b] the statics and
    the other variables are what they were, the assigned variable holds
    the value of [b], it is [==] to [b], and its text is the text of
    [b]. *)
Theorem X15_assignment_rebinds (cl : client) (i j : nat) (a b : HashString) :
  locals cl !! i = Some a ->
  locals cl !! j = Some b ->
  exists cl',
    exec (Assign i j) cl = (Ret VUnit, cl')
    /\ globals cl' = globals cl
    /\ locals cl' !! i = Some b
    /\ (forall k, k <> i -> locals cl' !! k = locals cl !! k)
    /\ (exec (Equal i j) cl').1 = Ret (VBool true)
    /\ (exec (CallGetString i) cl').1 = (exec (CallGetString j) cl').1.
Proof.
  intros Hi Hj. cbn [exec]. unfold with_local. rewrite Hi, Hj.
  unfold call, ret. cbn [fst snd].
  assert (Hb : assign a b = b) by (by destruct b). rewrite Hb.
  eexists. split; [done|]. cbn [globals locals].
  assert (Hi' : <[i:=b]> (locals cl) !! i = Some b).
  { apply list_lookup_insert_eq. by eapply lookup_lt_Some. }
  assert (Hj' : <[i:=b]> (locals cl) !! j = Some b).
  { destruct (decide (i = j)) as [->|Hne]; [done|].
    by rewrite list_lookup_insert_ne. }
  split; [done|]. split; [done|].
  split; [by intros k Hk; apply list_lookup_insert_ne|].
  unfold observe, call. cbn [globals locals]. rewrite Hi', Hj'.
  split; [|done]. unfold ret, op_eq. cbn [fst]. by rewrite Z.eqb_refl.
Qed.

(** X16 - The constructor from a character sequence reads up to the first
    NUL.  For a sequence without one it is the constructor from the same
    text; for a sequence with one it is the constructor from the text in
    front of the first NUL. *)
Theorem X16_c_str_constructor_stops_at_NUL (g : statics) :
  (forall c_str,
     NUL_free c_str = true ->
     HashString_from_c_str c_str g = HashString_from_string c_str g)
  /\ (forall before after,
        NUL_free before = true ->
        HashString_from_c_str (String.append before (String zero after)) g
        = HashString_from_string before g).
Proof.
  unfold HashString_from_c_str. split.
  - intros c_str H. by rewrite string_of_c_str_NUL_free.
  - intros before after H. by rewrite string_of_c_str_cut.
Qed.

(** *** The lifetime of the statics *)





Lemma lifetime_step_invariant (e : lifetime_event) (p : process) :
  s_schwarzCounter p <= 1 ->
  is_live (p_internedStrings p) = (s_schwarzCounter p =? 1) ->
  is_live (p_stringHash p) = (s_schwarzCounter p =? 1) ->
  INT_MIN < s_schwarzCounter p ->
  exists p',
    lifetime_step e p = (Ret tt, p')
    /\ s_schwarzCounter p' <= 1
    /\ is_live (p_internedStrings p') = (s_schwarzCounter p' =? 1)
    /\ is_live (p_stringHash p') = (s_schwarzCounter p' =? 1)
    /\ s_schwarzCounter p - 1 <= s_schwarzCounter p'.
Proof.
  intros Hle Ht Hh Hmin. destruct e; simpl.
  - unfold Initilizer.ctor. destruct (Z.eqb_spec (s_schwarzCounter p) 0) as [E|E].
    + eexists. split; [done|]. simpl. rewrite E. repeat split; done || lia.
    + eexists. split; [done|]. repeat split; done || lia.
  - unfold Initilizer.dtor.
    destruct (Z.eqb_spec (s_schwarzCounter p) INT_MIN) as [E|_]; [lia|].
    cbv zeta. destruct (Z.eqb_spec (s_schwarzCounter p - 1) 0) as [E|E].
    + assert (E1 : s_schwarzCounter p = 1) by lia.
      rewrite E1 in Ht, Hh. simpl in Ht, Hh.
      destruct (p_internedStrings p); try discriminate Ht.
      destruct (p_stringHash p); try discriminate Hh.
      simpl. eexists. split; [done|]. simpl. rewrite E. repeat split; done || lia.
    + eexists. split; [done|]. simpl.
      assert (E0 : (s_schwarzCounter p =? 1) = false) by (apply Z.eqb_neq; lia).
      assert (E1 : (s_schwarzCounter p - 1 =? 1) = false) by (apply Z.eqb_neq; lia).
      rewrite E1. rewrite E0 in Ht, Hh. repeat split; done || lia.
Qed.

Lemma lifetime_run_invariant (es : list lifetime_event) (p : process) :
  s_schwarzCounter p <= 1 ->
  is_live (p_internedStrings p) = (s_schwarzCounter p =? 1) ->
  is_live (p_stringHash p) = (s_schwarzCounter p =? 1) ->
  INT_MIN + Z.of_nat (length es) <= s_schwarzCounter p ->
  exists p',
    lifetime_run es p = (Ret tt, p')
    /\ s_schwarzCounter p' <= 1
    /\ is_live (p_internedStrings p') = (s_schwarzCounter p' =? 1)
    /\ is_live (p_stringHash p') = (s_schwarzCounter p' =? 1).
Proof.
  revert p. induction es as [|e es IH]; intros p Hle Ht Hh Hmin.
  - exists p. by repeat split.
  - cbn [length] in Hmin.
    destruct (lifetime_step_invariant e p Hle Ht Hh) as (p1 & E & Hle1 & Ht1 & Hh1 & Hc);
      [lia|].
    cbn [lifetime_run]. rewrite E. apply IH; try done. lia.
Qed.

(** X17 - What the counter counts.  Over any sequence of constructions
    and destructions of [initializer] objects (fewer than [2^31]) from the
    start of the process, every constructor and destructor returns, the
    counter never exceeds one, and the table and the hash functor exist
    exactly while the counter is one. *)
Theorem X17_counter_is_one_while_table_lives (es : list lifetime_event) :
  Z.of_nat (length es) < 2 ^ 31 ->
  exists p,
    lifetime_run es process_zero = (Ret tt, p)
    /\ Initilizer.getSchwarz p <= 1
    /\ (is_live (p_internedStrings p) = true <-> Initilizer.getSchwarz p = 1)
    /\ is_live (p_stringHash p) = is_live (p_internedStrings p).
Proof.
  intros Hlen.
  destruct (lifetime_run_invariant es process_zero) as (p & E & Hle & Ht & Hh);
    try done.
  { simpl. unfold INT_MIN. lia. }
  exists p. unfold Initilizer.getSchwarz. split; [done|]. split; [done|].
  split; [|congruence]. rewrite Ht. apply Z.eqb_eq.
Qed.


(** X19 - How the program starts.  The constructor of the first
    [initializer] followed by the definition of [s_kEmptyString] leaves the
    counter at one and the statics of [program_start]; the constructor of a
    further [initializer] then changes nothing; and the definition of
    [s_kEmptyString] with no [initializer] constructed goes through a null
    pointer. *)
Theorem X19_static_initialisation :
  exists p0 p,
    Initilizer.ctor process_zero = (Ret tt, p0)
    /\ define_kEmptyString p0 = (Ret tt, p)
    /\ Initilizer.getSchwarz p = 1
    /\ p_internedStrings p = Live (s_internedStrings program_start)
    /\ p_kEmptyString p = s_kEmptyString program_start
    /\ Initilizer.ctor p = (Ret tt, p)
    /\ (define_kEmptyString process_zero).1 = Undefined.
Proof.
  eexists _, _. split; [done|].
  unfold define_kEmptyString, in_process, HashString_from_c_str.
  change (string_of_c_str EmptyString) with EmptyString.
  cbn [Initilizer.ctor process_zero p_internedStrings p_stringHash
       s_schwarzCounter p_kEmptyString snd].
  rewrite HashString_from_string_eq. cbn [fst snd].
  split; [done|].
  rewrite program_start_eq. unfold register.
  rewrite insert_absent by apply lookup_empty.
  cbn [s_internedStrings s_kEmptyString p_internedStrings p_kEmptyString
       s_schwarzCounter fst snd Initilizer.getSchwarz].
  repeat split; done.
Qed.

End HashStringModel.

(** ** The claims at concrete inputs

    The hash functor is the FNV-1a hash; ["afaedhd"] and ["bbdceda"] are
    two texts whose hashes agree on the low 32 bits. *)

(** The scenarios of the documentation, run on the model. *)

Example intern_twice_same_id :
  exec fnv1a (CallInternString "PlayerMove") (client_start fnv1a)
  = (Ret (VID 3957470413),
     run fnv1a [CallInternString "PlayerMove"] (client_start fnv1a))
  /\ exec fnv1a (CallInternString "PlayerMove")
       (run fnv1a [CallInternString "PlayerMove"] (client_start fnv1a))
     = (Ret (VID 3957470413),
        run fnv1a [CallInternString "PlayerMove"] (client_start fnv1a))
  /\ (exec fnv1a (CallIsStringInterned "PlayerMove")
        (run fnv1a [CallInternString "PlayerMove"] (client_start fnv1a))).1
     = Ret (VBool true)
  /\ (exec fnv1a (CallGetStringFromHash 3957470413)
        (run fnv1a [CallInternString "PlayerMove"] (client_start fnv1a))).1
     = Ret (VString "PlayerMove").
Proof. repeat split; by vm_compute. Qed.

Example handles_of_equal_and_of_different_texts :
  map (fun o => (exec fnv1a o
                   (run fnv1a [NewFromString "PlayerDie"; NewFromCStr "PlayerDie";
                               NewFromString "PlayerMove"; NewDefault]
                      (client_start fnv1a))).1)
      [Equal 0 1; CallGetString 0; Equal 2 0; Less 2 0; Less 0 2;
       CallGetString 3; EqualID 3 2216829733; NotEqualString 2 "PlayerMove"]
  = [Ret (VBool true); Ret (VString "PlayerDie"); Ret (VBool false);
     Ret (VBool false); Ret (VBool true);
     Ret (VString EmptyString); Ret (VBool true); Ret (VBool false)].
Proof. by vm_compute. Qed.

(** With [NDEBUG] defined the assertion is compiled away: the constructor
    returns a handle bound to nothing, and reading its text is undefined. *)
Example unknown_id_without_assertions :
  HashString_from_id true 999999 (program_start fnv1a)
  = (Ret {| m_mapPosition := None; m_hashValue := 999999 |}, program_start fnv1a)
  /\ (getString {| m_mapPosition := None; m_hashValue := 999999 |}
        (program_start fnv1a)).1 = Undefined.
Proof. split; by vm_compute. Qed.

Lemma C1_roundtrip_witness :
  (forall t, t ∈ texts_interned [CallInternString "PlayerMove"; NewFromString "PlayerDie"] ->
             t <> "PlayerMove"%string ->
             hash_value_of fnv1a t <> hash_value_of fnv1a "PlayerMove")
  /\ exists id g',
       internString fnv1a "PlayerMove"
         (globals (run fnv1a [CallInternString "PlayerMove"; NewFromString "PlayerDie"]
                     (client_start fnv1a)))
       = (Ret id, g')
       /\ getStringFromHash id g' = (Ret "PlayerMove"%string, g').
Proof.
  assert (H : forall t,
    t ∈ texts_interned [CallInternString "PlayerMove"; NewFromString "PlayerDie"] ->
    t <> "PlayerMove"%string ->
    hash_value_of fnv1a t <> hash_value_of fnv1a "PlayerMove").
  { intros t Ht Hne. unfold texts_interned in Ht. simpl in Ht.
    rewrite !elem_of_cons, elem_of_nil in Ht.
    destruct Ht as [->|[->|[->|[]]]]; [by vm_compute|done|by vm_compute]. }
  split; [exact H|].
  exact (C1_resolve_intern_roundtrip fnv1a _ _ H).
Defined.

Lemma C2_preservation_witness :
  registry_invariant fnv1a (s_internedStrings (globals (client_start fnv1a)))
  /\ registry_invariant fnv1a
       (s_internedStrings
          (globals (exec fnv1a (NewFromString "PlayerDie") (client_start fnv1a)).2))
  /\ s_internedStrings
       (globals (exec fnv1a (NewFromString "PlayerDie") (client_start fnv1a)).2)
     !! hash_value_of fnv1a EmptyString = Some EmptyString.
Proof.
  assert (H : registry_invariant fnv1a (s_internedStrings (globals (client_start fnv1a)))).
  { intros k text Hk. vm_compute in Hk.
    destruct k as [|k|k]; try discriminate Hk.
    repeat (destruct k as [k|k|]; try discriminate Hk).
    injection Hk as <-. by vm_compute. }
  destruct (C2_operations_preserve_registry fnv1a (NewFromString "PlayerDie")
              (client_start fnv1a) H) as [Hinv Hkeep].
  split; [exact H|]. split; [exact Hinv|].
  apply Hkeep. by vm_compute.
Defined.

Lemma C3_fatal_witness :
  s_internedStrings (globals (client_start fnv1a)) !! 999999 = None
  /\ exec fnv1a (NewFromID 999999) (client_start fnv1a)
     = (AssertFail "Uninterned HashString Referenced", client_start fnv1a).
Proof.
  assert (H : s_internedStrings (globals (client_start fnv1a)) !! 999999 = None)
    by (by vm_compute).
  split; [exact H|].
  exact (proj2 (proj1 (C3_handle_from_unknown_id_is_fatal fnv1a 999999
                         (client_start fnv1a)) H)).
Defined.

Lemma C5_collision_witness :
  ("afaedhd" <> "bbdceda")%string
  /\ hash_value_of fnv1a "afaedhd" = hash_value_of fnv1a "bbdceda"
  /\ s_internedStrings (program_start fnv1a) !! hash_value_of fnv1a "afaedhd" = None
  /\ internString fnv1a "bbdceda"
       (globals (run fnv1a [CallInternString "PlayerMove"]
          {| globals := (internString fnv1a "afaedhd" (program_start fnv1a)).2;
             locals := [] |}))
     = (Ret (hash_value_of fnv1a "afaedhd"),
        globals (run fnv1a [CallInternString "PlayerMove"]
          {| globals := (internString fnv1a "afaedhd" (program_start fnv1a)).2;
             locals := [] |}))
  /\ getStringFromHash (hash_value_of fnv1a "afaedhd")
       (globals (run fnv1a [CallInternString "PlayerMove"]
          {| globals := (internString fnv1a "afaedhd" (program_start fnv1a)).2;
             locals := [] |}))
     = (Ret "afaedhd"%string,
        globals (run fnv1a [CallInternString "PlayerMove"]
          {| globals := (internString fnv1a "afaedhd" (program_start fnv1a)).2;
             locals := [] |})).
Proof.
  assert (Hne : ("afaedhd" <> "bbdceda")%string) by discriminate.
  assert (Hh : hash_value_of fnv1a "afaedhd" = hash_value_of fnv1a "bbdceda")
    by (by vm_compute).
  assert (Hf : s_internedStrings (program_start fnv1a)
               !! hash_value_of fnv1a "afaedhd" = None)
    by (by vm_compute).
  destruct (C5_first_text_is_canonical fnv1a "afaedhd" "bbdceda" (program_start fnv1a)
              (internString fnv1a "afaedhd" (program_start fnv1a)).2 []
              [CallInternString "PlayerMove"]
              Hne Hh Hf (or_introl eq_refl)) as (H1 & _ & H3).
  repeat split; assumption.
Defined.

Lemma C6_lookup_witness :
  s_internedStrings (program_start fnv1a) !! 2216829733 = Some EmptyString
  /\ (getStringFromHash 2216829733 (program_start fnv1a)).1 = Ret EmptyString
  /\ s_internedStrings (program_start fnv1a) !! 999999 = None
  /\ (getStringFromHash 999999 (program_start fnv1a)).1 = Ret EmptyString.
Proof.
  assert (H1 : s_internedStrings (program_start fnv1a) !! 2216829733 = Some EmptyString)
    by (by vm_compute).
  assert (H2 : s_internedStrings (program_start fnv1a) !! 999999 = None)
    by (by vm_compute).
  split; [exact H1|]. split.
  - exact (proj1 (C6_getStringFromHash_pure_lookup 2216829733 (program_start fnv1a)) _ H1).
  - split; [exact H2|].
    exact (proj1 (proj2 (C6_getStringFromHash_pure_lookup 999999 (program_start fnv1a))) H2).
Defined.

Lemma C7_comparison_witness :
  getString {| m_mapPosition := Some 2964756782; m_hashValue := 2964756782 |}
    (globals (run fnv1a [NewFromString "PlayerDie"] (client_start fnv1a)))
  = (Ret "PlayerDie"%string,
     globals (run fnv1a [NewFromString "PlayerDie"] (client_start fnv1a)))
  /\ op_eq_string {| m_mapPosition := Some 2964756782; m_hashValue := 2964756782 |}
       "PlayerDie" (globals (run fnv1a [NewFromString "PlayerDie"] (client_start fnv1a)))
     = (Ret true, globals (run fnv1a [NewFromString "PlayerDie"] (client_start fnv1a)))
  /\ op_ne_string {| m_mapPosition := Some 2964756782; m_hashValue := 2964756782 |}
       "PlayerDie" (globals (run fnv1a [NewFromString "PlayerDie"] (client_start fnv1a)))
     = (Ret false, globals (run fnv1a [NewFromString "PlayerDie"] (client_start fnv1a))).
Proof.
  set (g := globals (run fnv1a [NewFromString "PlayerDie"] (client_start fnv1a))).
  set (a := {| m_mapPosition := Some 2964756782; m_hashValue := 2964756782 |}).
  assert (H : getString a g = (Ret "PlayerDie"%string, g)) by (by vm_compute).
  destruct (C7_equality_operators a a 0 "PlayerDie" g) as (_ & _ & _ & _ & Hs).
  destruct (Hs _ H) as (r & Heq & [_ Hr] & Hneq).
  rewrite (Hr eq_refl) in Heq, Hneq.
  split; [exact H|]. split; [exact Heq|exact Hneq].
Defined.

Lemma C8_before_intern_witness :
  (forall t, t ∈ texts_interned [NewFromString "PlayerDie"] ->
             hash_value_of fnv1a t <> hash_value_of fnv1a "PlayerMove")
  /\ (isStringInterned fnv1a "PlayerMove"
        (globals (run fnv1a [NewFromString "PlayerDie"] (client_start fnv1a)))).1
     = Ret false.
Proof.
  assert (H : forall t, t ∈ texts_interned [NewFromString "PlayerDie"] ->
              hash_value_of fnv1a t <> hash_value_of fnv1a "PlayerMove").
  { intros t Ht. unfold texts_interned in Ht. simpl in Ht.
    rewrite !elem_of_cons, elem_of_nil in Ht.
    destruct Ht as [->|[->|[]]]; by vm_compute. }
  split; [exact H|].
  exact (proj2 (C8_isStringInterned_after_intern fnv1a "PlayerMove") _ H).
Defined.

Lemma C10_sentinel_witness :
  s_internedStrings
    (globals (run fnv1a [CallInternString "PlayerMove"] (client_start fnv1a)))
  !! 999999 = None
  /\ exists id0,
       internString fnv1a EmptyString
         (globals (run fnv1a [CallInternString "PlayerMove"] (client_start fnv1a)))
       = (Ret id0,
          globals (run fnv1a [CallInternString "PlayerMove"] (client_start fnv1a)))
       /\ getStringFromHash id0
            (globals (run fnv1a [CallInternString "PlayerMove"] (client_start fnv1a)))
          = (Ret EmptyString,
             globals (run fnv1a [CallInternString "PlayerMove"] (client_start fnv1a)))
       /\ getStringFromHash 999999
            (globals (run fnv1a [CallInternString "PlayerMove"] (client_start fnv1a)))
          = (Ret EmptyString,
             globals (run fnv1a [CallInternString "PlayerMove"] (client_start fnv1a))).
Proof.
  assert (H : s_internedStrings
                (globals (run fnv1a [CallInternString "PlayerMove"] (client_start fnv1a)))
              !! 999999 = None) by (by vm_compute).
  split; [exact H|].
  exact (C10_not_found_is_empty_string fnv1a [CallInternString "PlayerMove"] 999999 H).
Defined.

(** C8, as stated, fails.  At the start of the program no call of
    [internString] has been made, and [isStringInterned] is already true
    of the empty string, which the construction of [s_kEmptyString] put in
    the table.  And after [internString "afaedhd"] alone,
    [isStringInterned "bbdceda"] is true although ["bbdceda"] was never
    handed to the table: the two texts have the same identifier. *)
Lemma C8_counterexample_interned_before_first_intern :
  (isStringInterned fnv1a EmptyString (globals (run fnv1a [] (client_start fnv1a)))).1
  = Ret true
  /\ (isStringInterned fnv1a "bbdceda"
        (globals (run fnv1a [CallInternString "afaedhd"] (client_start fnv1a)))).1
     = Ret true.
Proof. split; by vm_compute. Qed.

(** ** The further properties at concrete inputs *)

Lemma X2_frame_witness :
  2216829733 <> hash_value_of fnv1a "PlayerMove"
  /\ (getStringFromHash 2216829733
        (internString fnv1a "PlayerMove" (program_start fnv1a)).2).1
     = (getStringFromHash 2216829733 (program_start fnv1a)).1.
Proof.
  assert (H : 2216829733 <> hash_value_of fnv1a "PlayerMove") by (by vm_compute).
  split; [exact H|].
  exact (proj1 (X2_internString_frame fnv1a "PlayerMove" 2216829733
                  (program_start fnv1a) H)).
Defined.

Lemma X3_size_witness :
  (isStringInterned fnv1a "PlayerMove" (program_start fnv1a)).1 = Ret false
  /\ size (s_internedStrings (internString fnv1a "PlayerMove" (program_start fnv1a)).2)
     = S (size (s_internedStrings (program_start fnv1a)))
  /\ (isStringInterned fnv1a EmptyString (program_start fnv1a)).1 = Ret true
  /\ (internString fnv1a EmptyString (program_start fnv1a)).2 = program_start fnv1a.
Proof.
  assert (H1 : (isStringInterned fnv1a "PlayerMove" (program_start fnv1a)).1 = Ret false)
    by (by vm_compute).
  assert (H2 : (isStringInterned fnv1a EmptyString (program_start fnv1a)).1 = Ret true)
    by (by vm_compute).
  split; [exact H1|]. split.
  - exact (proj2 (X3_internString_size fnv1a "PlayerMove" (program_start fnv1a)) H1).
  - split; [exact H2|].
    exact (proj1 (X3_internString_size fnv1a EmptyString (program_start fnv1a)) H2).
Defined.


Lemma X6_apart_witness :
  hash_value_of fnv1a "PlayerMove" <> hash_value_of fnv1a "PlayerDie"
  /\ s_internedStrings (program_start fnv1a) !! hash_value_of fnv1a "PlayerMove" = None
  /\ s_internedStrings (program_start fnv1a) !! hash_value_of fnv1a "PlayerDie" = None
  /\ getStringFromHash (hash_value_of fnv1a "PlayerMove")
       (globals (run fnv1a [NewDefault]
          {| globals := (internString fnv1a "PlayerDie"
                           (internString fnv1a "PlayerMove" (program_start fnv1a)).2).2;
             locals := [] |}))
     = (Ret "PlayerMove"%string,
        globals (run fnv1a [NewDefault]
          {| globals := (internString fnv1a "PlayerDie"
                           (internString fnv1a "PlayerMove" (program_start fnv1a)).2).2;
             locals := [] |})).
Proof.
  assert (H0 : hash_value_of fnv1a "PlayerMove" <> hash_value_of fnv1a "PlayerDie")
    by (by vm_compute).
  assert (H1 : s_internedStrings (program_start fnv1a)
               !! hash_value_of fnv1a "PlayerMove" = None) by (by vm_compute).
  assert (H2 : s_internedStrings (program_start fnv1a)
               !! hash_value_of fnv1a "PlayerDie" = None) by (by vm_compute).
  split; [exact H0|]. split; [exact H1|]. split; [exact H2|].
  exact (proj1 (proj2 (X6_distinct_identifiers_resolve_apart fnv1a
                         "PlayerMove" "PlayerDie" (program_start fnv1a) []
                         [NewDefault] H0 H1 H2))).
Defined.

Lemma X9_stable_witness :
  bound (s_internedStrings (program_start fnv1a))
    {| m_mapPosition := Some 2216829733; m_hashValue := 2216829733 |}
  /\ exists text,
       getString {| m_mapPosition := Some 2216829733; m_hashValue := 2216829733 |}
         (program_start fnv1a)
       = (Ret text, program_start fnv1a)
       /\ getString {| m_mapPosition := Some 2216829733; m_hashValue := 2216829733 |}
            (globals (run fnv1a [CallInternString "PlayerMove"]
                        {| globals := program_start fnv1a; locals := [] |}))
          = (Ret text,
             globals (run fnv1a [CallInternString "PlayerMove"]
                        {| globals := program_start fnv1a; locals := [] |})).
Proof.
  assert (H : bound (s_internedStrings (program_start fnv1a))
                {| m_mapPosition := Some 2216829733; m_hashValue := 2216829733 |}).
  { split; [reflexivity|]. exists EmptyString. by vm_compute. }
  split; [exact H|].
  exact (X9_handle_text_is_stable fnv1a _ (program_start fnv1a) []
           [CallInternString "PlayerMove"] H).
Defined.

Lemma X10_equal_witness :
  locals (run fnv1a [NewFromString "PlayerDie"; NewFromCStr "PlayerDie"]
            (client_start fnv1a)) !! 0%nat
  = Some {| m_mapPosition := Some 2964756782; m_hashValue := 2964756782 |}
  /\ locals (run fnv1a [NewFromString "PlayerDie"; NewFromCStr "PlayerDie"]
               (client_start fnv1a)) !! 1%nat
     = Some {| m_mapPosition := Some 2964756782; m_hashValue := 2964756782 |}
  /\ exists ta tb,
       getString {| m_mapPosition := Some 2964756782; m_hashValue := 2964756782 |}
         (globals (run fnv1a [NewFromString "PlayerDie"; NewFromCStr "PlayerDie"]
                     (client_start fnv1a)))
       = (Ret ta,
          globals (run fnv1a [NewFromString "PlayerDie"; NewFromCStr "PlayerDie"]
                     (client_start fnv1a)))
       /\ getString {| m_mapPosition := Some 2964756782; m_hashValue := 2964756782 |}
            (globals (run fnv1a [NewFromString "PlayerDie"; NewFromCStr "PlayerDie"]
                        (client_start fnv1a)))
          = (Ret tb,
             globals (run fnv1a [NewFromString "PlayerDie"; NewFromCStr "PlayerDie"]
                        (client_start fnv1a)))
       /\ (op_eq {| m_mapPosition := Some 2964756782; m_hashValue := 2964756782 |}
             {| m_mapPosition := Some 2964756782; m_hashValue := 2964756782 |} = true
           <-> ta = tb).
Proof.
  assert (H0 : locals (run fnv1a [NewFromString "PlayerDie"; NewFromCStr "PlayerDie"]
                         (client_start fnv1a)) !! 0%nat
               = Some {| m_mapPosition := Some 2964756782; m_hashValue := 2964756782 |})
    by (by vm_compute).
  assert (H1 : locals (run fnv1a [NewFromString "PlayerDie"; NewFromCStr "PlayerDie"]
                         (client_start fnv1a)) !! 1%nat
               = Some {| m_mapPosition := Some 2964756782; m_hashValue := 2964756782 |})
    by (by vm_compute).
  split; [exact H0|]. split; [exact H1|].
  exact (X10_equal_handles_equal_texts fnv1a _ 0%nat 1%nat _ _ H0 H1).
Defined.

Lemma X11_ordering_witness :
  op_lt {| m_mapPosition := Some 1; m_hashValue := 1 |}
        {| m_mapPosition := Some 2; m_hashValue := 2 |} = true
  /\ op_lt {| m_mapPosition := Some 2; m_hashValue := 2 |}
           {| m_mapPosition := Some 3; m_hashValue := 3 |} = true
  /\ op_lt {| m_mapPosition := Some 1; m_hashValue := 1 |}
           {| m_mapPosition := Some 3; m_hashValue := 3 |} = true
  /\ op_eq {| m_mapPosition := Some 1; m_hashValue := 1 |}
           {| m_mapPosition := Some 2; m_hashValue := 2 |} = false.
Proof.
  assert (H1 : op_lt {| m_mapPosition := Some 1; m_hashValue := 1 |}
                     {| m_mapPosition := Some 2; m_hashValue := 2 |} = true)
    by reflexivity.
  assert (H2 : op_lt {| m_mapPosition := Some 2; m_hashValue := 2 |}
                     {| m_mapPosition := Some 3; m_hashValue := 3 |} = true)
    by reflexivity.
  destruct (X11_ordering_is_strict_and_total
              {| m_mapPosition := Some 1; m_hashValue := 1 |}
              {| m_mapPosition := Some 2; m_hashValue := 2 |}
              {| m_mapPosition := Some 3; m_hashValue := 3 |})
    as (_ & Htrans & _ & Hlt & _).
  split; [exact H1|]. split; [exact H2|].
  split; [exact (Htrans H1 H2)|exact (proj1 (Hlt H1))].
Defined.

Lemma X14_failure_witness :
  (exec fnv1a (NewFromID 999999) (run fnv1a [] (client_start fnv1a))).1
  = AssertFail "Uninterned HashString Referenced"
  /\ exists id,
       NewFromID 999999 = NewFromID id
       /\ s_internedStrings (globals (run fnv1a [] (client_start fnv1a))) !! id = None
       /\ (exec fnv1a (NewFromID 999999) (run fnv1a [] (client_start fnv1a))).2
          = run fnv1a [] (client_start fnv1a).
Proof.
  assert (H : (exec fnv1a (NewFromID 999999) (run fnv1a [] (client_start fnv1a))).1
              = AssertFail "Uninterned HashString Referenced") by (by vm_compute).
  split; [exact H|].
  exact (proj2 (X14_only_the_assertion_fails fnv1a [] (NewFromID 999999)) _ H).
Defined.

Lemma X15_assign_witness :
  locals (run fnv1a [NewFromString "PlayerDie"; NewFromString "PlayerMove"]
            (client_start fnv1a)) !! 0%nat
  = Some {| m_mapPosition := Some 2964756782; m_hashValue := 2964756782 |}
  /\ locals (run fnv1a [NewFromString "PlayerDie"; NewFromString "PlayerMove"]
               (client_start fnv1a)) !! 1%nat
     = Some {| m_mapPosition := Some 3957470413; m_hashValue := 3957470413 |}
  /\ exists cl',
       exec fnv1a (Assign 0 1)
         (run fnv1a [NewFromString "PlayerDie"; NewFromString "PlayerMove"]
            (client_start fnv1a))
       = (Ret VUnit, cl')
       /\ locals cl' !! 0%nat
          = Some {| m_mapPosition := Some 3957470413; m_hashValue := 3957470413 |}
       /\ (exec fnv1a (Equal 0 1) cl').1 = Ret (VBool true).
Proof.
  assert (H0 : locals (run fnv1a [NewFromString "PlayerDie"; NewFromString "PlayerMove"]
                         (client_start fnv1a)) !! 0%nat
               = Some {| m_mapPosition := Some 2964756782; m_hashValue := 2964756782 |})
    by (by vm_compute).
  assert (H1 : locals (run fnv1a [NewFromString "PlayerDie"; NewFromString "PlayerMove"]
                         (client_start fnv1a)) !! 1%nat
               = Some {| m_mapPosition := Some 3957470413; m_hashValue := 3957470413 |})
    by (by vm_compute).
  split; [exact H0|]. split; [exact H1|].
  destruct (X15_assignment_rebinds fnv1a _ 0%nat 1%nat _ _ H0 H1)
    as (cl' & E & _ & Hi & _ & Heq & _).
  exists cl'. split; [exact E|]. split; [exact Hi|exact Heq].
Defined.

Lemma X16_c_str_witness :
  NUL_free "ab" = true
  /\ HashString_from_c_str fnv1a "ab" (program_start fnv1a)
     = HashString_from_string fnv1a "ab" (program_start fnv1a)
  /\ HashString_from_c_str fnv1a
       (String.append "ab" (String zero "cd")) (program_start fnv1a)
     = HashString_from_string fnv1a "ab" (program_start fnv1a).
Proof.
  assert (H : NUL_free "ab" = true) by reflexivity.
  split; [exact H|]. split.
  - exact (proj1 (X16_c_str_constructor_stops_at_NUL fnv1a (program_start fnv1a)) _ H).
  - exact (proj2 (X16_c_str_constructor_stops_at_NUL fnv1a (program_start fnv1a))
             "ab"%string "cd"%string H).
Defined.

Lemma X17_counter_witness :
  Z.of_nat (length [Construct; Construct; Destruct; Destruct]) < 2 ^ 31
  /\ exists p,
       lifetime_run [Construct; Construct; Destruct; Destruct] process_zero = (Ret tt, p)
       /\ Initilizer.getSchwarz p <= 1
       /\ (is_live (p_internedStrings p) = true <-> Initilizer.getSchwarz p = 1)
       /\ is_live (p_stringHash p) = is_live (p_internedStrings p).
Proof.
  assert (H : Z.of_nat (length [Construct; Construct; Destruct; Destruct]) < 2 ^ 31)
    by (by vm_compute).
  split; [exact H|].
  exact (X17_counter_is_one_while_table_lives _ H).
Defined.

